(** * HTTP over UDP client of goupnp (package httpux)

    A shallow embedding of [src/httpux/httpux.go].  Go's [error] values are
    [option error] ([None] is [nil]); the socket, the ticker and the request
    context are the environment, and their answers are fed to the two loops
    as event lists; what the code does to the outside world (datagrams
    written, sleeps, log lines, channel sends) is recorded in an effect log.
    The functions of Go's standard library that the code calls and whose
    result is a function of their arguments are the fields of [GoLib]. *)

From stdpp Require Import base option list strings gmap pretty.
From Stdlib Require Import ZArith Lia.

Local Open Scope string_scope.
Local Open Scope Z_scope.

(** ** Errors *)

(** [context.Context.Err] after [Done] is closed. *)
Inductive ctxErr := Canceled | DeadlineExceeded.

Inductive error :=
| NetError (timeout temporary : bool) (msg : string) (* implements net.Error *)
| PlainError (msg : string)                          (* errors.New, fmt.Errorf *)
| CtxError (c : ctxErr).                             (* context.Canceled, context.DeadlineExceeded *)

Definition ctxErr_msg (c : ctxErr) : string :=
  match c with
  | Canceled => "context canceled"
  | DeadlineExceeded => "context deadline exceeded"
  end.

(** [err.Error()] *)
Definition Error (e : error) : string :=
  match e with
  | NetError _ _ msg => msg
  | PlainError msg => msg
  | CtxError c => ctxErr_msg c
  end.

(** The type assertion [err.(net.Error)]: the pair is [(Timeout(), Temporary())].
    [context.DeadlineExceeded] has both methods and answers true to both. *)
Definition asNetError (e : error) : option (bool * bool) :=
  match e with
  | NetError t p _ => Some (t, p)
  | PlainError _ => None
  | CtxError DeadlineExceeded => Some (true, true)
  | CtxError Canceled => None
  end.

(** ** Data model *)

Definition CR : string := String (Ascii.ascii_of_nat 13) EmptyString.
Definition LF : string := String (Ascii.ascii_of_nat 10) EmptyString.
Definition CRLF : string := CR +:+ LF.

(** [http.Header] is [map[string][]string]. *)
Abbreviation Header := (gmap string (list string)).

(** [time.Duration] counts nanoseconds. *)
Definition Millisecond : Z := 1000000.

Inductive Addr {IP : Type} :=
| UDPAddr (ip : IP) (port : Z)    (* *net.UDPAddr *)
| OtherAddr (s : string).         (* any other net.Addr *)
Arguments Addr : clear implicits.

(** The state of the [net.PacketConn] that matters to this package. *)
Record PacketConn {IP : Type} := {
  localAddr : Addr IP;
  connClosed : bool;
}.
Arguments PacketConn : clear implicits.

Record Response := {
  Status : string;
  RespHeader : Header;
  Body : string;
}.

(** The functions of the standard library called by the package. *)
Class GoLib := {
  IP : Type;
  URL : Type;
  (* net.ParseIP: nil when the text is no IP address *)
  ParseIP : string → option IP;
  (* net.IP.String *)
  IP_String : IP → string;
  (* net.ListenPacket(network, address): the local address the new socket
     is bound to, or the error *)
  ListenPacket_bind : string → string → Addr IP + error;
  (* net.ResolveUDPAddr(network, address) *)
  ResolveUDPAddr : string → string → Addr IP + error;
  (* url.URL.RequestURI *)
  RequestURI : URL → string;
  (* the bytes http.Header.Write hands to its writer *)
  Header_Write : Header → string;
  (* textproto.CanonicalMIMEHeaderKey, used by http.Header.Add *)
  CanonicalMIMEHeaderKey : string → string;
  (* http.ReadResponse on the bytes of one datagram, for a request method *)
  ReadResponse : string → string → Response + error;
}.

Section Httpux.
Context `{GoLib}.

(** The request context: [ctx.Err()] is nil until [ctx.Done()] is closed. *)
Inductive Context_ := CtxActive | CtxDoneWith (c : ctxErr).

Definition ctx_Err (ctx : Context_) : option error :=
  match ctx with
  | CtxActive => None
  | CtxDoneWith c => Some (CtxError c)
  end.

Record Request := {
  Method : string;
  ReqURL : URL;
  ReqHeader : Header;
  Host : string;
}.

(** A channel of responses: [chClosed] after [close], [chSent] what was sent. *)
Record Chan := {
  chClosed : bool;
  chSent : list Response;
}.

(** [make(chan *http.Response)] *)
Definition make_chan : Chan := {| chClosed := false; chSent := [] |}.

Record HTTPUClient := {
  connLock : bool;              (* sync.Mutex: true when held *)
  conn : PacketConn IP;
  receiver : option Chan;       (* None is the nil channel *)
}.

Definition LocalAddressHeader : string := "goupnp-local-address".

(** ** Effects and results *)

Inductive effect :=
| EWriteTo (payload : string) (dest : Addr IP)  (* conn.WriteTo *)
| ESetDeadlinePast                              (* conn.SetDeadline(now - 1s) *)
| ESleep (d : Z)                                (* time.Sleep *)
| ELog (line : string)                          (* log.Printf *)
| EChanSend (r : Response).                     (* receiver <- r *)

(** How a call stands: still running (blocked on its next event), returned,
    or stopped by a run-time panic. *)
Inductive status {A : Type} :=
| Running
| Returned (a : A)
| Panicked (msg : string).
Arguments status : clear implicits.

(** ** bytes.Buffer *)

(** [bytes.Buffer.Write]: appends, and its error is always nil. *)
Definition Buffer_Write (buf p : string) : string * (Z * option error) :=
  (buf +:+ p, (Z.of_nat (String.length p), None)).

(** [fmt.Fprintf(&buf, "%s %s HTTP/1.1\r\n", a, b)] *)
Definition Fprintf_request_line (buf a b : string) : string * (Z * option error) :=
  Buffer_Write buf (a +:+ " " +:+ b +:+ " HTTP/1.1" +:+ CRLF).

(** [h.Write(&buf)]: the only errors are those of the writer. *)
Definition Header_Write_to (h : Header) (buf : string) : string * option error :=
  let '(buf', (_, err)) := Buffer_Write buf (Header_Write h) in (buf', err).

(** ** Sending *)

(** What the environment does during one [sendHTTPURequest]: whether the
    context is cancelled while the send is in flight, and what
    [conn.WriteTo] reports. *)
Record sendEnv := {
  cancelledDuringSend : bool;
  writeN : Z;
  writeErr : option error;
}.

(** The bytes built in [requestBuf], or the error of a write to it. *)
Definition encodeRequest (req : Request) : string + error :=
  let requestBuf := "" in
  let method := Method req in
  let method := if decide (method = "") then "GET" else method in
  match Fprintf_request_line requestBuf method (RequestURI (ReqURL req)) with
  | (_, (_, Some err)) => inr err
  | (requestBuf, (_, None)) =>
    match Header_Write_to (ReqHeader req) requestBuf with
    | (_, Some err) => inr err
    | (requestBuf, None) =>
      match Buffer_Write requestBuf CRLF with
      | (_, (_, Some err)) => inr err
      | (requestBuf, (_, None)) => inl requestBuf
      end
    end
  end.

Definition short_write_msg (n len : Z) : string :=
  "httpu: wrote " +:+ pretty n +:+ " bytes rather than full " +:+ pretty len
  +:+ " in request".

Definition sendHTTPURequest (httpu : HTTPUClient) (req : Request) (env : sendEnv)
  : list effect * option error :=
  match encodeRequest req with
  | inr err => ([], Some err)
  | inl requestBuf =>
    match ResolveUDPAddr "udp" (Host req) with
    | inr err => ([], Some err)
    | inl destAddr =>
      (* the goroutine that watches ctx.Done() until the send is over *)
      let watcher := if cancelledDuringSend env then [ESetDeadlinePast] else [] in
      let effs := (watcher ++ [EWriteTo requestBuf destAddr])%list in
      match writeErr env with
      | Some err => (effs, Some err)
      | None =>
        let n := writeN env in
        let len := Z.of_nat (String.length requestBuf) in
        if decide (n < len)
        then (effs, Some (PlainError (short_write_msg n len)))
        else (effs, None)
      end
    end
  end.

(** ** Lifecycle *)

(** [net.ListenPacket]: a new, open socket. *)
Definition ListenPacket (network address : string) : PacketConn IP + error :=
  match ListenPacket_bind network address with
  | inl a => inl {| localAddr := a; connClosed := false |}
  | inr err => inr err
  end.

Definition NewHTTPUClient : HTTPUClient + error :=
  match ListenPacket "udp" ":0" with
  | inr err => inr err
  | inl conn => inl {| connLock := false; conn := conn; receiver := Some make_chan |}
  end.

Definition NewHTTPUClientAddr (addr : string) : HTTPUClient + error :=
  match ParseIP addr with
  | None => inr (PlainError "Invalid listening address")
  | Some ip =>
    match ListenPacket "udp" (IP_String ip +:+ ":0") with
    | inr err => inr err
    | inl conn => inl {| connLock := false; conn := conn; receiver := None |}
    end
  end.

(** The builtin [close(ch)]: the closed channel, or the message of the
    run-time panic. *)
Definition close_chan (ch : option Chan) : Chan + string :=
  match ch with
  | None => inr "close of nil channel"
  | Some c =>
    if chClosed c then inr "close of closed channel"
    else inl {| chClosed := true; chSent := chSent c |}
  end.

(** [conn.Close()] *)
Definition conn_Close (c : PacketConn IP) : PacketConn IP * option error :=
  if connClosed c
  then (c, Some (NetError false false "use of closed network connection"))
  else ({| localAddr := localAddr c; connClosed := true |}, None).

(** [Close]: the client after the call and how the call ended.  The deferred
    [Unlock] runs on return and on panic alike. *)
Definition Close (httpu : HTTPUClient) : HTTPUClient * status (option error) :=
  if connLock httpu then (httpu, Running)
  else
    match close_chan (receiver httpu) with
    | inr msg => ({| connLock := false; conn := conn httpu; receiver := receiver httpu |},
                  Panicked msg)
    | inl ch =>
      let '(conn', err) := conn_Close (conn httpu) in
      ({| connLock := false; conn := conn'; receiver := Some ch |}, Returned err)
    end.

(** ** Loops *)

Inductive control := Continue | Return (err : option error).

(** [for { body }] over the events the body waits for, one per iteration. *)
Fixpoint for_loop {E : Type} (body : E → list effect * control) (evs : list E)
  : list effect * status (option error) :=
  match evs with
  | [] => ([], Running)
  | ev :: evs' =>
    match body ev with
    | (effs, Return err) => (effs, Returned err)
    | (effs, Continue) =>
      let '(effs', st) := for_loop body evs' in ((effs ++ effs')%list, st)
    end
  end.

(** The case chosen by the [select] of the transmitter. *)
Inductive selectEvent :=
| TickerC (env : sendEnv)     (* <-ticker.C, with what happens during the send *)
| CtxDone (c : ctxErr).       (* <-ctx.Done() *)

Definition sendIteration (httpu : HTTPUClient) (req : Request) (ev : selectEvent)
  : list effect * control :=
  match ev with
  | TickerC env =>
    let '(effs, err) := sendHTTPURequest httpu req env in
    match err with
    | Some e => (effs, Return (Some e))
    | None => (effs, Continue)
    end
  | CtxDone c => ([], Return (ctx_Err (CtxDoneWith c)))
  end.

(** [time.NewTicker] panics unless the interval is positive. *)
Definition startLoopSendHTTPURequest (httpu : HTTPUClient) (req : Request)
    (interval : Z) (evs : list selectEvent) : list effect * status (option error) :=
  if decide (interval ≤ 0)
  then ([], Panicked "non-positive interval for NewTicker")
  else for_loop (sendIteration httpu req) evs.

(** What [conn.ReadFrom] reports: a datagram, or an error. *)
Inductive readResult :=
| ReadOk (datagram : string)
| ReadErr (err : error).

(** [h.Add(key, value)] *)
Definition Header_Add (h : Header) (key value : string) : Header :=
  let key := CanonicalMIMEHeaderKey key in
  <[key := (default [] (h !! key) ++ [value])%list]> h.

(** The response at the end of an iteration that parsed one. *)
Definition annotateResponse (httpu : HTTPUClient) (response : Response) : Response :=
  match localAddr (conn httpu) with
  | UDPAddr ip _ =>
    {| Status := Status response;
       RespHeader := Header_Add (RespHeader response) LocalAddressHeader (IP_String ip);
       Body := Body response |}
  | OtherAddr _ => response
  end.

(** [responseBytes[:n]]: the bytes of a datagram that reach the parser, read
    into a buffer of 2048 bytes. *)
Definition received_bytes (datagram : string) : string :=
  let n := Nat.min (String.length datagram) 2048 in
  String.substring 0 n datagram.

Definition receiveIteration (httpu : HTTPUClient) (req : Request) (r : readResult)
  : list effect * control :=
  match r with
  | ReadErr err =>
    match asNetError err with
    | Some (timeout, temporary) =>
      if timeout then ([], Return None)
      else if temporary then ([ESleep (10 * Millisecond)], Continue)
      else ([], Return (Some err))
    | None => ([], Return (Some err))
    end
  | ReadOk datagram =>
    match ReadResponse (received_bytes datagram) (Method req) with
    | inr err =>
      ([ELog ("httpu: error while parsing response: " +:+ Error err)], Continue)
    | inl response =>
      let response := annotateResponse httpu response in
      ([], Continue)
    end
  end.

Definition startReceiveResponse (httpu : HTTPUClient) (req : Request)
    (reads : list readResult) : list effect * status (option error) :=
  for_loop (receiveIteration httpu req) reads.

(** ** Orchestration *)

Inductive task := Transmitter | Collector.

#[global] Instance task_eq_dec : EqDecision task.
Proof. solve_decision. Defined.

(** The [errgroup.Group] of [DoWithContext] with its two goroutines.  Each
    goroutine has consumed a number of the events it waits for; [gErr] is the
    field [err] of the group, written under [errOnce]; [finished] lists the
    returns in the order in which they happened. *)
Record Group := {
  sendSteps : nat;
  recvSteps : nat;
  gErr : option error;
  finished : list (task * option error);
}.

(** [if err := f(); err != nil { g.errOnce.Do(func() { g.err = err }) }] *)
Definition errOnce_Do (g_err err : option error) : option error :=
  match err with
  | None => g_err
  | Some e =>
    match g_err with
    | None => Some e
    | Some _ => g_err
    end
  end.

(** The first non-nil error of a list of results. *)
Fixpoint first_error (errs : list (option error)) : option error :=
  match errs with
  | [] => None
  | Some e :: _ => Some e
  | None :: errs' => first_error errs'
  end.

Section Operation.
Variables (httpu : HTTPUClient) (req : Request) (interval : Z).
Variables (evs : list selectEvent) (reads : list readResult).

(** The goroutine started by [tasks.Go] for a task, after [k] of its events. *)
Definition task_run (t : task) (k : nat) : list effect * status (option error) :=
  match t with
  | Transmitter => startLoopSendHTTPURequest httpu req interval (take k evs)
  | Collector => startReceiveResponse httpu req (take k reads)
  end.

Definition task_steps (t : task) (g : Group) : nat :=
  match t with Transmitter => sendSteps g | Collector => recvSteps g end.

Definition task_events (t : task) : nat :=
  match t with Transmitter => length evs | Collector => length reads end.

Definition advance (t : task) (g : Group) : Group :=
  match t with
  | Transmitter => {| sendSteps := S (sendSteps g); recvSteps := recvSteps g;
                      gErr := gErr g; finished := finished g |}
  | Collector => {| sendSteps := sendSteps g; recvSteps := S (recvSteps g);
                    gErr := gErr g; finished := finished g |}
  end.

(** The scheduler lets task [t] run until it waits again or returns. *)
Definition Group_step (g : Group) (t : task) : Group :=
  let k := task_steps t g in
  match (task_run t k).2 with
  | Running =>
    if decide (k < task_events t)%nat then
      let g' := advance t g in
      match (task_run t (S k)).2 with
      | Returned err =>
        {| sendSteps := sendSteps g'; recvSteps := recvSteps g';
           gErr := errOnce_Do (gErr g') err;
           finished := (finished g' ++ [(t, err)])%list |}
      | _ => g'
      end
    else g
  | _ => g
  end.

Definition Group_zero : Group :=
  {| sendSteps := 0; recvSteps := 0; gErr := None; finished := [] |}.

Definition Group_run (sched : list task) : Group :=
  foldl Group_step Group_zero sched.

(** [tasks.Wait()]: blocked until both goroutines are done; a panic in a
    goroutine ends the program. *)
Definition Group_Wait (g : Group) : status (option error) :=
  match (task_run Transmitter (sendSteps g)).2, (task_run Collector (recvSteps g)).2 with
  | Panicked msg, _ => Panicked msg
  | _, Panicked msg => Panicked msg
  | Returned _, Returned _ => Returned (gErr g)
  | _, _ => Running
  end.

Record outcome := {
  sendLog : list effect;          (* what the transmitter did *)
  recvLog : list effect;          (* what the collector did *)
  result : status (option error);
}.

(** [DoWithContext] under a schedule of its two goroutines. *)
Definition DoWithContext (sched : list task) : outcome :=
  let g := Group_run sched in
  {| sendLog := (task_run Transmitter (sendSteps g)).1;
     recvLog := (task_run Collector (recvSteps g)).1;
     result := Group_Wait g |}.

Definition Do (sched : list task) : outcome :=
  DoWithContext sched.

(** How a task stands in a group. *)
Definition task_status (t : task) (g : Group) : status (option error) :=
  (task_run t (task_steps t g)).2.

(** What holds of the group between any two steps of the scheduler: [gErr]
    is the first error of the returns so far, and [finished] lists, once
    each, the tasks that have returned. *)
Definition Group_inv (g : Group) : Prop :=
  gErr g = first_error (finished g).*2 ∧
  NoDup (finished g).*1 ∧
  ∀ t err, (t, err) ∈ finished g ↔ task_status t g = Returned err.

(** How often the scheduler picks a task. *)
Definition turns (t : task) (sched : list task) : nat :=
  length (filter (λ t', t' = t) sched).

End Operation.

(** ** Notions used in the statements *)

(** The wire format in the words of the specification: the request line,
    the serialized header fields, the terminating blank line. *)
Definition wire_format (req : Request) : string :=
  let method := if decide (Method req = "") then "GET" else Method req in
  let request_line := method +:+ " " +:+ RequestURI (ReqURL req) +:+ " HTTP/1.1" +:+ CRLF in
  request_line +:+ Header_Write (ReqHeader req) +:+ CRLF.

(** The datagrams written, in order. *)
Definition writes (effs : list effect) : list (string * Addr IP) :=
  omap (λ e, match e with EWriteTo p d => Some (p, d) | _ => None end) effs.

(** The responses sent on the receiver channel, in order. *)
Definition deliveries (effs : list effect) : list Response :=
  omap (λ e, match e with EChanSend r => Some r | _ => None end) effs.


(** An event of the [select] that leaves the deadline of the socket alone:
    no cancellation arrives while a send is in flight. *)
Definition no_cancel_in_flight (ev : selectEvent) : Prop :=
  match ev with
  | TickerC env => cancelledDuringSend env = false
  | CtxDone _ => True
  end.

(** A read after which the collector reads again: a datagram, or an error
    that is temporary and no timeout. *)
Definition read_again (r : readResult) : Prop :=
  match r with
  | ReadOk _ => True
  | ReadErr err => asNetError err = Some (false, true)
  end.

(** A read error that the collector returns as it is: no [net.Error], or
    one that is neither a timeout nor temporary. *)
Definition fatal_read (err : error) : Prop :=
  asNetError err = None ∨ asNetError err = Some (false, false).

(** A tick whose send succeeds. *)
Definition good_tick (httpu : HTTPUClient) (req : Request) (ev : selectEvent) : Prop :=
  match ev with
  | TickerC env => (sendHTTPURequest httpu req env).2 = None
  | CtxDone _ => False
  end.

(** No cancellation and no deadline: the [select] only ever sees ticks. *)
Definition never_cancelled (evs : list selectEvent) : Prop :=
  Forall (λ ev, match ev with TickerC _ => True | CtxDone _ => False end) evs.

End Httpux.

(** ** A small standard library to run the code on concrete inputs

    IP addresses and URLs are kept as their text; the resolver wants a
    [host:port]; the parser accepts a datagram that starts with a status
    line of HTTP/1.1. *)
Module Sample.

Fixpoint before_colon (s : string) : option string :=
  match s with
  | EmptyString => None
  | String c s' =>
    if decide (c = Ascii.ascii_of_nat 58) then Some EmptyString
    else String c <$> before_colon s'
  end.

Definition parseIP (s : string) : option string :=
  if decide (s ∈ ["127.0.0.1"; "192.168.1.10"]) then Some s else None.

Definition listenBind (network address : string) : Addr string + error :=
  match before_colon address with
  | Some "" => inl (UDPAddr "0.0.0.0" 49152)
  | Some host => inl (UDPAddr host 49152)
  | None => inr (PlainError ("listen " +:+ network +:+ ": missing port in address"))
  end.

Definition resolveUDPAddr (network address : string) : Addr string + error :=
  match before_colon address with
  | Some host => inl (UDPAddr host 1900)
  | None => inr (PlainError ("address " +:+ address +:+ ": missing port in address"))
  end.

Definition headerWrite (h : Header) : string :=
  foldr (λ kv acc,
          foldr (λ v acc', kv.1 +:+ ": " +:+ v +:+ CRLF +:+ acc') acc kv.2)
        "" (map_to_list h).

Definition canonicalKey (k : string) : string :=
  if decide (k = "goupnp-local-address") then "Goupnp-Local-Address" else k.

Definition readResponse (data method : string) : Response + error :=
  if String.prefix "HTTP/1.1 200 OK" data
  then inl {| Status := "200 OK"; RespHeader := ∅; Body := "" |}
  else inr (PlainError "malformed HTTP response").

Definition lib : GoLib := {|
  IP := string;
  URL := string;
  ParseIP := parseIP;
  IP_String := id;
  ListenPacket_bind := listenBind;
  ResolveUDPAddr := resolveUDPAddr;
  RequestURI := id;
  Header_Write := headerWrite;
  CanonicalMIMEHeaderKey := canonicalKey;
  ReadResponse := readResponse;
|}.
#[local] Existing Instance lib.

(** An M-SEARCH of SSDP to the multicast group. *)
Definition search : Request :=
  {| Method := "M-SEARCH"; ReqURL := "*";
     ReqHeader := {[ "Man" := ["ssdp:discover"] ]};
     Host := "239.255.255.250:1900" |}.

(** The same request with no method set. *)
Definition search_no_method : Request :=
  {| Method := ""; ReqURL := "/search"; ReqHeader := ∅;
     Host := "239.255.255.250:1900" |}.

(** A request whose host has no port: every send fails to resolve. *)
Definition unresolvable : Request :=
  {| Method := "M-SEARCH"; ReqURL := "*"; ReqHeader := ∅; Host := "nowhere" |}.

Definition client : HTTPUClient :=
  {| connLock := false;
     conn := {| localAddr := UDPAddr "192.168.1.10" 49152; connClosed := false |};
     receiver := Some {| chClosed := false; chSent := [] |} |}.

Definition full_write : sendEnv :=
  {| cancelledDuringSend := false; writeN := 1000; writeErr := None |}.

Definition short_write : sendEnv :=
  {| cancelledDuringSend := false; writeN := 3; writeErr := None |}.

Definition ok_datagram : string := "HTTP/1.1 200 OK" +:+ CRLF +:+ CRLF.
Definition noise : string := "not a response".

(** [n] bytes of padding. *)
Fixpoint padding (n : nat) : string :=
  match n with
  | O => ""
  | S n' => String (Ascii.ascii_of_nat 32) (padding n')
  end.

(** A response that fills the read buffer. *)
Definition long_datagram : string := ok_datagram +:+ padding 2048.

Definition timeout_error : error := NetError true true "i/o timeout".
Definition temporary_error : error := NetError false true "resource temporarily unavailable".
Definition closed_error : error := NetError false false "use of closed network connection".

End Sample.

(** * Properties *)

(** ** The loop *)
Section ForLoop.
Context `{GoLib} {E : Type} (body : E → list effect * control).

Lemma for_loop_cons_Continue ev effs evs :
  body ev = (effs, Continue) →
  for_loop body (ev :: evs)
  = ((effs ++ (for_loop body evs).1)%list, (for_loop body evs).2).
Proof. intros Hb. simpl. rewrite Hb. by destruct (for_loop body evs). Qed.

Lemma for_loop_cons_Return ev effs err evs :
  body ev = (effs, Return err) → for_loop body (ev :: evs) = (effs, Returned err).
Proof. intros Hb. simpl. by rewrite Hb. Qed.

Lemma for_loop_not_Panicked evs msg : (for_loop body evs).2 ≠ Panicked msg.
Proof.
  induction evs as [|ev evs IH]; simpl; [done|].
  destruct (body ev) as [effs [|err]]; [|done].
  by destruct (for_loop body evs).
Qed.

(** A loop that is still running goes on with the events that follow. *)
Lemma for_loop_app_Running pre rest :
  (for_loop body pre).2 = Running →
  for_loop body (pre ++ rest)
  = (((for_loop body pre).1 ++ (for_loop body rest).1)%list, (for_loop body rest).2).
Proof.
  induction pre as [|ev pre IH]; simpl.
  - intros _. by destruct (for_loop body rest).
  - destruct (body ev) as [effs [|err]]; [|done].
    destruct (for_loop body pre) as [effs' st] eqn:Hpre. simpl in *.
    intros Hst. rewrite (IH Hst). simpl. by rewrite (assoc_L (++)).
Qed.

(** A loop that has returned looks at no further event. *)
Lemma for_loop_app_Returned pre rest err :
  (for_loop body pre).2 = Returned err →
  for_loop body (pre ++ rest) = for_loop body pre.
Proof.
  induction pre as [|ev pre IH]; simpl; [done|].
  destruct (body ev) as [effs [|err']]; [|done].
  destruct (for_loop body pre) as [effs' st] eqn:Hpre. simpl in *.
  intros Hst. by rewrite (IH Hst).
Qed.

Lemma for_loop_take_Returned k evs err :
  (for_loop body (take k evs)).2 = Returned err →
  for_loop body evs = for_loop body (take k evs).
Proof.
  intros Hk. rewrite <- (take_drop k evs) at 1. by eapply for_loop_app_Returned.
Qed.

(** An iteration that continues leaves the result of the loop as it is. *)
Lemma for_loop_skip pre ev effs rest :
  body ev = (effs, Continue) →
  (for_loop body (pre ++ ev :: rest)).2 = (for_loop body (pre ++ rest)).2.
Proof.
  intros Hb. induction pre as [|ev' pre IH]; simpl.
  - rewrite Hb. by destruct (for_loop body rest).
  - destruct (body ev') as [effs' [|err]]; [|done].
    destruct (for_loop body (pre ++ ev :: rest)), (for_loop body (pre ++ rest)).
    simpl in *. done.
Qed.

Lemma for_loop_Running evs :
  Forall (λ ev, (body ev).2 = Continue) evs → (for_loop body evs).2 = Running.
Proof.
  induction 1 as [|ev evs Hev _ IH]; simpl; [done|].
  destruct (body ev) as [effs c]. simpl in Hev. subst c.
  by destruct (for_loop body evs).
Qed.

(** A loop returns what one of its iterations returns. *)
Lemma for_loop_Returned_inv evs err :
  (for_loop body evs).2 = Returned err →
  ∃ ev, ev ∈ evs ∧ (body ev).2 = Return err.
Proof.
  induction evs as [|ev evs IH]; simpl; [done|].
  destruct (body ev) as [effs [|err']] eqn:Hb.
  - destruct (for_loop body evs) as [effs' st]. simpl in *.
    intros Hst. destruct (IH Hst) as (ev' & Hin & Hev').
    exists ev'. split; [by apply list_elem_of_further | done].
  - simpl. intros [= ->]. exists ev. split; [apply list_elem_of_here|].
    by rewrite Hb.
Qed.

(** The effects of a loop come from its iterations. *)
Lemma for_loop_effects evs (P : effect → Prop) :
  (∀ ev, Forall P (body ev).1) → Forall P (for_loop body evs).1.
Proof.
  intros Hbody. induction evs as [|ev evs IH]; simpl; [constructor|].
  specialize (Hbody ev). destruct (body ev) as [effs [|err]]; simpl in *; [|done].
  destruct (for_loop body evs) as [effs' st]. simpl in *.
  by apply Forall_app.
Qed.

End ForLoop.

(** ** Sending *)
Section Sending.
Context `{GoLib}.
Implicit Types (httpu : HTTPUClient) (req : Request) (env : sendEnv).

Lemma append_cons a (s t : string) : String a s +:+ t = String a (s +:+ t).
Proof. reflexivity. Qed.

Lemma append_assoc (s t u : string) : (s +:+ t) +:+ u = s +:+ t +:+ u.
Proof. induction s as [|a s IH]; [done|]. by rewrite !append_cons, IH. Qed.

(** No write to the buffer fails: the request is always encoded, and the
    bytes are those of the wire format. *)
Lemma encodeRequest_wire_format req : encodeRequest req = inl (wire_format req).
Proof.
  unfold encodeRequest, wire_format, Header_Write_to, Fprintf_request_line,
    Buffer_Write.
  simpl. f_equal. change ("" +:+ ?s) with s. by rewrite append_assoc.
Qed.

Lemma sendHTTPURequest_unresolved httpu req env err :
  ResolveUDPAddr "udp" (Host req) = inr err →
  sendHTTPURequest httpu req env = ([], Some err).
Proof.
  intros Hr. unfold sendHTTPURequest.
  by rewrite encodeRequest_wire_format, Hr.
Qed.

Lemma sendHTTPURequest_resolved httpu req env dest :
  ResolveUDPAddr "udp" (Host req) = inl dest →
  writes (sendHTTPURequest httpu req env).1 = [(wire_format req, dest)].
Proof.
  intros Hr. unfold sendHTTPURequest.
  rewrite encodeRequest_wire_format, Hr.
  destruct (cancelledDuringSend env), (writeErr env); simpl; try done;
    by case_decide.
Qed.

(** C9: the bytes that [sendHTTPURequest] encodes are the request line
    [<METHOD> <request-target> HTTP/1.1\r\n] (with [GET] for an empty
    method), the serialized header fields and a terminating [\r\n], with
    nothing after it; when the destination resolves they are handed to one
    single [WriteTo], and when it does not nothing is sent. *)
Theorem sendHTTPURequest_wire_format httpu req env :
  let method := if decide (Method req = "") then "GET" else Method req in
  let payload :=
    method +:+ " " +:+ RequestURI (ReqURL req) +:+ " HTTP/1.1" +:+ CRLF
    +:+ Header_Write (ReqHeader req) +:+ CRLF in
  encodeRequest req = inl payload ∧
  writes (sendHTTPURequest httpu req env).1
  = match ResolveUDPAddr "udp" (Host req) with
    | inl dest => [(payload, dest)]
    | inr _ => []
    end.
Proof.
  intros method payload.
  assert (payload = wire_format req) as ->.
  { unfold payload, method, wire_format. by rewrite !append_assoc. }
  split; [apply encodeRequest_wire_format|].
  destruct (ResolveUDPAddr "udp" (Host req)) as [dest|err] eqn:Hr.
  - by apply sendHTTPURequest_resolved.
  - by erewrite sendHTTPURequest_unresolved.
Qed.


(** The transmitter returns nothing but errors. *)
Lemma sendIteration_Return httpu req ev err :
  (sendIteration httpu req ev).2 = Return err → err ≠ None.
Proof.
  destruct ev as [env|c]; simpl.
  - destruct (sendHTTPURequest httpu req env) as [effs [e|]]; simpl; [|done].
    by intros [= <-].
  - by intros [= <-].
Qed.

Lemma sendIteration_good_tick httpu req ev :
  good_tick httpu req ev → (sendIteration httpu req ev).2 = Continue.
Proof.
  destruct ev as [env|c]; simpl; [|done].
  destruct (sendHTTPURequest httpu req env) as [effs err]. simpl. by intros ->.
Qed.

Lemma startLoopSendHTTPURequest_positive httpu req interval evs :
  0 < interval →
  startLoopSendHTTPURequest httpu req interval evs
  = for_loop (sendIteration httpu req) evs.
Proof. intros Hi. unfold startLoopSendHTTPURequest. by rewrite decide_False by lia. Qed.

Lemma startLoopSendHTTPURequest_Returned httpu req interval evs err :
  (startLoopSendHTTPURequest httpu req interval evs).2 = Returned err →
  0 < interval ∧ err ≠ None ∧
  ∃ ev, ev ∈ evs ∧ (sendIteration httpu req ev).2 = Return err.
Proof.
  unfold startLoopSendHTTPURequest. case_decide; [done|].
  intros (ev & Hin & Hev)%for_loop_Returned_inv.
  split; [lia|]. split; [by eapply sendIteration_Return|]. eauto.
Qed.

(** The loop does not end while ticks come and sends succeed. *)
Lemma startLoopSendHTTPURequest_Running httpu req interval evs :
  0 < interval →
  Forall (good_tick httpu req) evs →
  (startLoopSendHTTPURequest httpu req interval evs).2 = Running.
Proof.
  intros Hi Hevs. rewrite startLoopSendHTTPURequest_positive by done.
  apply for_loop_Running. eapply Forall_impl; [done|].
  apply sendIteration_good_tick.
Qed.

End Sending.

(** ** Receiving *)
Section Receiving.
Context `{GoLib}.
Implicit Types (httpu : HTTPUClient) (req : Request) (reads : list readResult).

Lemma deliveries_nil (effs : list effect) :
  Forall (λ e, ∀ r, e ≠ EChanSend r) effs → deliveries effs = [].
Proof.
  induction 1 as [|e effs He _ IH]; [done|].
  destruct e; try exact IH. by destruct (He r).
Qed.

Lemma receiveIteration_no_send httpu req r :
  Forall (λ e, ∀ r', e ≠ EChanSend r') (receiveIteration httpu req r).1.
Proof.
  destruct r as [datagram|err]; simpl.
  - destruct (ReadResponse _ _); simpl; repeat constructor; done.
  - destruct (asNetError err) as [[[] []]|]; simpl; repeat constructor; done.
Qed.

(** Nothing is ever sent on the receiver channel by the collector. *)
Lemma startReceiveResponse_no_delivery httpu req reads :
  deliveries (startReceiveResponse httpu req reads).1 = [].
Proof.
  apply deliveries_nil, for_loop_effects. apply receiveIteration_no_send.
Qed.

Lemma receiveIteration_parsed httpu req datagram response :
  ReadResponse (received_bytes datagram) (Method req) = inl response →
  receiveIteration httpu req (ReadOk datagram) = ([], Continue).
Proof. intros Hp. simpl. by rewrite Hp. Qed.

Lemma annotateResponse_header httpu response ip port :
  localAddr (conn httpu) = UDPAddr ip port →
  RespHeader (annotateResponse httpu response)
    !! CanonicalMIMEHeaderKey LocalAddressHeader
  = Some (default [] (RespHeader response !! CanonicalMIMEHeaderKey LocalAddressHeader)
          ++ [IP_String ip])%list.
Proof.
  intros Ha. unfold annotateResponse. rewrite Ha. simpl.
  unfold Header_Add. by rewrite lookup_insert_eq.
Qed.

(** C2: for a datagram that parses as a response, the collector adds the
    header [goupnp-local-address] with the local IP of the socket to the
    response, but it then goes on to the next read without sending the
    response on the receiver channel: no response is ever delivered. *)
Theorem collector_annotates_but_never_delivers
    httpu req datagram response ip port :
  ReadResponse (received_bytes datagram) (Method req) = inl response →
  localAddr (conn httpu) = UDPAddr ip port →
  IP_String ip ∈ default [] (RespHeader (annotateResponse httpu response)
                               !! CanonicalMIMEHeaderKey LocalAddressHeader) ∧
  receiveIteration httpu req (ReadOk datagram) = ([], Continue) ∧
  ∀ pre rest,
    deliveries (startReceiveResponse httpu req (pre ++ ReadOk datagram :: rest)).1
    = [].
Proof.
  intros Hp Ha. split; [|split].
  - erewrite annotateResponse_header by done. simpl.
    apply elem_of_app. right. apply list_elem_of_here.
  - by eapply receiveIteration_parsed.
  - intros pre rest. apply startReceiveResponse_no_delivery.
Qed.

(** C4: a read error that is a [net.Error] with [Timeout()] true ends the
    collector: it reads nothing more and returns nil. *)
Theorem collector_timeout_returns_nil httpu req pre err temporary rest :
  asNetError err = Some (true, temporary) →
  (startReceiveResponse httpu req pre).2 = Running →
  startReceiveResponse httpu req (pre ++ ReadErr err :: rest)
  = ((startReceiveResponse httpu req pre).1, Returned None).
Proof.
  intros Ht Hpre. unfold startReceiveResponse in *.
  rewrite for_loop_app_Running by done.
  rewrite (for_loop_cons_Return _ (ReadErr err) [] None).
  - simpl. by rewrite (right_id_L [] (++)).
  - simpl. by rewrite Ht.
Qed.

(** C6: a datagram that does not parse as a response is logged and dropped:
    the iteration continues, and the loop ends as it would have ended
    without that datagram, whatever was read before and is read after. *)
Theorem collector_discards_unparseable httpu req datagram err :
  ReadResponse (received_bytes datagram) (Method req) = inr err →
  receiveIteration httpu req (ReadOk datagram)
  = ([ELog ("httpu: error while parsing response: " +:+ Error err)], Continue) ∧
  ∀ pre rest,
    (startReceiveResponse httpu req (pre ++ ReadOk datagram :: rest)).2
    = (startReceiveResponse httpu req (pre ++ rest)).2.
Proof.
  intros Hp.
  assert (receiveIteration httpu req (ReadOk datagram)
          = ([ELog ("httpu: error while parsing response: " +:+ Error err)],
             Continue)) as Hit.
  { simpl. by rewrite Hp. }
  split; [done|]. intros pre rest. by eapply for_loop_skip.
Qed.

(** C7: a read error that is a [net.Error] with [Timeout()] false and
    [Temporary()] true makes the collector sleep 10 ms and read again: the
    loop ends as it would have ended without that error, wherever the error
    occurs. *)
Theorem collector_retries_temporary httpu req err :
  asNetError err = Some (false, true) →
  receiveIteration httpu req (ReadErr err) = ([ESleep (10 * Millisecond)], Continue) ∧
  (∀ pre rest,
    (startReceiveResponse httpu req pre).2 = Running →
    startReceiveResponse httpu req (pre ++ ReadErr err :: rest)
    = (((startReceiveResponse httpu req pre).1 ++
        ESleep (10 * Millisecond) :: (startReceiveResponse httpu req rest).1)%list,
       (startReceiveResponse httpu req rest).2)) ∧
  (∀ pre rest,
    (startReceiveResponse httpu req (pre ++ ReadErr err :: rest)).2
    = (startReceiveResponse httpu req (pre ++ rest)).2).
Proof.
  intros Ht.
  assert (receiveIteration httpu req (ReadErr err)
          = ([ESleep (10 * Millisecond)], Continue)) as Hit.
  { simpl. by rewrite Ht. }
  split; [done|]. split; intros pre rest.
  - intros Hpre. unfold startReceiveResponse in *.
    rewrite for_loop_app_Running by done.
    by rewrite (for_loop_cons_Continue _ _ _ _ Hit).
  - by eapply for_loop_skip.
Qed.

End Receiving.

(** ** Orchestration *)
Section Orchestration.
Context `{GoLib}.
Variables (httpu : HTTPUClient) (req : Request) (interval : Z).
Variables (evs : list selectEvent) (reads : list readResult).

Local Abbreviation run := (task_run httpu req interval evs reads).
Local Abbreviation st := (task_status httpu req interval evs reads).
Local Abbreviation step := (Group_step httpu req interval evs reads).
Local Abbreviation inv := (Group_inv httpu req interval evs reads).
Local Abbreviation events := (task_events evs reads).

Lemma first_error_snoc errs err :
  first_error (errs ++ [err]) = errOnce_Do (first_error errs) err.
Proof.
  induction errs as [|[e|] errs IH]; simpl.
  - by destruct err.
  - by destruct err.
  - done.
Qed.

Lemma task_steps_advance t t' g :
  task_steps t' (advance t g)
  = if decide (t' = t) then S (task_steps t' g) else task_steps t' g.
Proof. by destruct t, t'. Qed.

Lemma task_status_advance_ne t t' g : t' ≠ t → st t' (advance t g) = st t' g.
Proof.
  intros Hne. unfold task_status. rewrite task_steps_advance.
  by rewrite decide_False.
Qed.

(** Before any event a task has not returned. *)
Lemma task_run_0 t err : (run t 0).2 ≠ Returned err.
Proof.
  destruct t; simpl; [|done].
  unfold startLoopSendHTTPURequest. by case_decide.
Qed.

(** A task that has returned after some of its events has returned the same
    on all of them. *)
Lemma task_run_Returned t k err :
  (run t k).2 = Returned err → (run t (events t)).2 = Returned err.
Proof.
  destruct t; simpl; rewrite firstn_all.
  - unfold startLoopSendHTTPURequest. case_decide; [done|].
    intros Hk. by rewrite (for_loop_take_Returned _ _ _ _ Hk).
  - unfold startReceiveResponse.
    intros Hk. by rewrite (for_loop_take_Returned _ _ _ _ Hk).
Qed.

Lemma task_run_Panicked t k msg :
  (run t k).2 = Panicked msg → (run t (events t)).2 = Panicked msg.
Proof.
  destruct t; simpl.
  - unfold startLoopSendHTTPURequest. case_decide; [done|].
    intros Hk. by apply for_loop_not_Panicked in Hk.
  - intros Hk. by apply for_loop_not_Panicked in Hk.
Qed.

Lemma Group_zero_inv : inv Group_zero.
Proof.
  split; [done|]. split; [constructor|].
  intros t err. split; [by intros ?%elem_of_nil|].
  unfold task_status. intros Hst. destruct (task_run_0 t err).
  by destruct t.
Qed.

Lemma gErr_advance t g : gErr (advance t g) = gErr g.
Proof. by destruct t. Qed.

Lemma finished_advance t g : finished (advance t g) = finished g.
Proof. by destruct t. Qed.

Lemma Group_step_inv g t : inv g → inv (step g t).
Proof.
  intros (Herr & Hnd & Hfin). unfold Group_step.
  destruct (run t (task_steps t g)).2 as [|err0|msg] eqn:Hk; [|done..].
  case_decide as Hlt; [|done].
  assert (∀ err, (t, err) ∉ finished g) as Hnot.
  { intros err Hin. apply Hfin in Hin. unfold task_status in Hin. congruence. }
  assert ((∀ err, (run t (S (task_steps t g))).2 ≠ Returned err) →
          inv (advance t g)) as Hadv.
  { intros HSk. split; [by rewrite gErr_advance, finished_advance|].
    split; [by rewrite finished_advance|]. intros t' err.
    rewrite finished_advance. destruct (decide (t' = t)) as [->|Hne].
    - split; [by intros ?%Hnot|]. unfold task_status.
      rewrite task_steps_advance, decide_True by done. by intros ?%HSk.
    - by rewrite task_status_advance_ne. }
  destruct (run t (S (task_steps t g))).2 as [|err|msg] eqn:HSk;
    [by apply Hadv| |by apply Hadv].
  split; [|split]; cbn [gErr finished]; rewrite ?gErr_advance, ?finished_advance.
  - transitivity (first_error ((finished g).*2 ++ [err])); [|by rewrite fmap_app].
    by rewrite first_error_snoc, Herr.
  - rewrite fmap_app. apply NoDup_app.
    split; [done|]. split; [|apply NoDup_singleton].
    intros t1 ([t2 e2] & Heq & Hin)%list_elem_of_fmap Hin2.
    simpl in Heq, Hin2. apply list_elem_of_singleton in Hin2. subst.
    by apply Hnot in Hin.
  - intros t' err'. unfold task_status.
    rewrite elem_of_app, list_elem_of_singleton.
    destruct (decide (t' = t)) as [->|Hne].
    + replace (task_steps t _) with (S (task_steps t g)) by by destruct t.
      rewrite HSk. split.
      * intros [?%Hnot|[= ->]]; done.
      * intros [= ->]. by right.
    + replace (task_steps t' _) with (task_steps t' g) by by destruct t, t'.
      fold (st t' g). rewrite <- Hfin. split; [|by left].
      intros [?|[= ? ?]]; done.
Qed.

Lemma Group_run_snoc sched t :
  Group_run httpu req interval evs reads (sched ++ [t])
  = step (Group_run httpu req interval evs reads sched) t.
Proof. unfold Group_run. by rewrite foldl_app. Qed.

Lemma Group_run_inv sched : inv (Group_run httpu req interval evs reads sched).
Proof.
  induction sched as [|t sched IH] using rev_ind.
  - apply Group_zero_inv.
  - rewrite Group_run_snoc. by apply Group_step_inv.
Qed.

(** [Wait] returns once both tasks have returned, and then the error of the
    group. *)
Lemma Group_Wait_Returned g r :
  Group_Wait httpu req interval evs reads g = Returned r ↔
  ∃ rs rr, st Transmitter g = Returned rs ∧ st Collector g = Returned rr ∧
           r = gErr g.
Proof.
  unfold Group_Wait, task_status. simpl task_steps.
  destruct (run Transmitter (sendSteps g)).2 as [|rs|m1],
           (run Collector (recvSteps g)).2 as [|rr|m2]; split;
    try done; try (by intros (? & ? & ? & ? & ?)).
  - intros [= <-]. eauto.
  - by intros (? & ? & _ & _ & ->).
Qed.

(** Once both tasks have returned, [finished] holds the two returns, in one
    of the two orders. *)
Lemma finished_both g rs rr :
  inv g →
  st Transmitter g = Returned rs → st Collector g = Returned rr →
  finished g = [(Transmitter, rs); (Collector, rr)] ∨
  finished g = [(Collector, rr); (Transmitter, rs)].
Proof.
  intros (_ & Hnd & Hfin) Hs Hr.
  assert (∀ t e, (t, e) ∈ finished g →
            (t, e) = (Transmitter, rs) ∨ (t, e) = (Collector, rr)) as Hel.
  { intros [] e Hin%Hfin; [left|right]; congruence. }
  pose proof (proj2 (Hfin _ _) Hs) as HinS.
  pose proof (proj2 (Hfin _ _) Hr) as HinR.
  destruct (finished g) as [|[t1 e1] [|[t2 e2] [|[t3 e3] l]]].
  - by apply elem_of_nil in HinS.
  - apply list_elem_of_singleton in HinS, HinR. congruence.
  - simpl in Hnd. apply NoDup_cons in Hnd as [Hne _].
    apply not_elem_of_cons in Hne as [Hne _].
    destruct (Hel t1 e1) as [[= -> ->]|[= -> ->]]; [apply list_elem_of_here| |];
    (destruct (Hel t2 e2) as [[= -> ->]|[= -> ->]];
       [apply list_elem_of_further, list_elem_of_here|..]); by auto.
  - simpl in Hnd. apply NoDup_cons in Hnd as [Hn1 Hnd].
    apply NoDup_cons in Hnd as [Hn2 _].
    apply not_elem_of_cons in Hn1 as [H12 Hn1].
    apply not_elem_of_cons in Hn1 as [H13 _].
    apply not_elem_of_cons in Hn2 as [H23 _].
    by destruct t1, t2, t3.
Qed.

(** The transmitter never returns nil, so neither does the operation. *)
Lemma task_status_Transmitter g rs :
  st Transmitter g = Returned rs → 0 < interval ∧ rs ≠ None.
Proof.
  unfold task_status. simpl.
  intros (? & ? & _)%startLoopSendHTTPURequest_Returned. done.
Qed.

Lemma DoWithContext_Returned sched r :
  result (DoWithContext httpu req interval evs reads sched) = Returned r →
  ∃ rs rr,
    (startLoopSendHTTPURequest httpu req interval evs).2 = Returned rs ∧
    (startReceiveResponse httpu req reads).2 = Returned rr ∧
    rs ≠ None ∧
    (r = first_error [rs; rr] ∨ r = first_error [rr; rs]).
Proof.
  simpl. intros (rs & rr & Hs & Hr & ->)%Group_Wait_Returned.
  pose proof (Group_run_inv sched) as Hinv.
  exists rs, rr. split; [|split; [|split]].
  - apply task_run_Returned in Hs. simpl in Hs. by rewrite firstn_all in Hs.
  - apply task_run_Returned in Hr. simpl in Hr. by rewrite firstn_all in Hr.
  - by apply task_status_Transmitter in Hs as [_ ?].
  - destruct Hinv as (-> & _). 
    destruct (finished_both _ rs rr (Group_run_inv sched) Hs Hr) as [-> | ->];
      auto.
Qed.

Lemma DoWithContext_never_nil sched :
  result (DoWithContext httpu req interval evs reads sched) ≠ Returned None.
Proof.
  intros (rs & rr & _ & _ & Hrs & Hr)%DoWithContext_Returned.
  destruct rs as [e|]; [|done]. destruct rr; destruct Hr; done.
Qed.

(** *** Progress under the scheduler *)

Lemma Group_step_stuck g t :
  (run t (task_steps t g)).2 ≠ Running ∨ ¬ (task_steps t g < events t)%nat →
  step g t = g.
Proof.
  unfold Group_step. intros [Hst|Hlt].
  - by destruct (run t (task_steps t g)).2.
  - destruct (run t (task_steps t g)).2; try done. by rewrite decide_False.
Qed.

Lemma Group_step_steps g t t' :
  (run t (task_steps t g)).2 = Running → (task_steps t g < events t)%nat →
  task_steps t' (step g t) = task_steps t' (advance t g).
Proof.
  unfold Group_step. intros -> Hlt. rewrite decide_True by done.
  by destruct (run t (S (task_steps t g))).2, t'.
Qed.

Lemma turns_snoc t sched t' :
  turns t (sched ++ [t']) = if decide (t' = t) then S (turns t sched) else turns t sched.
Proof.
  unfold turns. rewrite filter_app, length_app.
  rewrite filter_cons, filter_nil. case_decide; simpl; lia.
Qed.

(** A task that is still running has taken every turn it was given, as long
    as it had events to take. *)
Lemma Group_run_steps sched t :
  let g := Group_run httpu req interval evs reads sched in
  (task_steps t g ≤ events t)%nat ∧
  (st t g = Running → task_steps t g = Nat.min (turns t sched) (events t)).
Proof.
  induction sched as [|t' sched IH] using rev_ind; simpl.
  - split; [destruct t; simpl; lia|]. intros _. by destruct t.
  - rewrite Group_run_snoc, turns_snoc. simpl in IH.
    set (g := Group_run httpu req interval evs reads sched) in *.
    destruct IH as [Hle Hrun].
    destruct (run t' (task_steps t' g)).2 as [|r0|m0] eqn:Hst';
      [destruct (decide (task_steps t' g < events t')%nat) as [Hlt|Hge]|..].
    + unfold task_status. rewrite !(Group_step_steps _ _ _ Hst' Hlt).
      rewrite task_steps_advance.
      destruct (decide (t = t')) as [->|Hne].
      * rewrite decide_True by done. specialize (Hrun Hst'). split; lia.
      * rewrite decide_False by done. split; [done|]. apply Hrun.
    + rewrite Group_step_stuck by auto. split; [done|]. intros Hst.
      specialize (Hrun Hst). case_decide; [subst|done]. lia.
    + rewrite Group_step_stuck by (left; congruence). split; [done|].
      intros Hst. specialize (Hrun Hst). case_decide; [subst|done].
      unfold task_status in Hst. congruence.
    + rewrite Group_step_stuck by (left; congruence). split; [done|].
      intros Hst. specialize (Hrun Hst). case_decide; [subst|done].
      unfold task_status in Hst. congruence.
Qed.

(** A task that returns on its events has returned once it was given a turn
    for each of them. *)
Lemma enough_turns sched t r :
  (run t (events t)).2 = Returned r →
  (events t ≤ turns t sched)%nat →
  st t (Group_run httpu req interval evs reads sched) = Returned r.
Proof.
  intros Hfull Hturns.
  destruct (Group_run_steps sched t) as [Hle Hrun].
  destruct (st t (Group_run httpu req interval evs reads sched))
    as [|r'|msg] eqn:Hst.
  - specialize (Hrun eq_refl). unfold task_status in Hst.
    replace (task_steps t _) with (events t) in Hst by lia. congruence.
  - apply task_run_Returned in Hst. congruence.
  - apply task_run_Panicked in Hst. congruence.
Qed.

(** When both loops return on their events, the operation returns under
    every schedule that gives each task a turn per event. *)
Lemma DoWithContext_returns sched rs rr :
  (startLoopSendHTTPURequest httpu req interval evs).2 = Returned rs →
  (startReceiveResponse httpu req reads).2 = Returned rr →
  (length evs ≤ turns Transmitter sched)%nat →
  (length reads ≤ turns Collector sched)%nat →
  ∃ r, result (DoWithContext httpu req interval evs reads sched) = Returned r.
Proof.
  intros Hs Hr Hts Htr.
  exists (gErr (Group_run httpu req interval evs reads sched)). simpl.
  apply Group_Wait_Returned. exists rs, rr. split; [|split; [|done]].
  - apply enough_turns; [|done]. simpl. by rewrite firstn_all.
  - apply enough_turns; [|done]. simpl. by rewrite firstn_all.
Qed.

End Orchestration.

Section Operation_claims.
Context `{GoLib}.
Implicit Types (httpu : HTTPUClient) (req : Request) (interval : Z).
Implicit Types (evs : list selectEvent) (reads : list readResult).
Implicit Types (sched : list task).

(** C3: [DoWithContext] starts the transmitter and the collector on the same
    client and request; [Wait] returns exactly when both have returned, and
    then the first non-nil error in the order in which the two returned
    (nil when both returned nil); what each task returned is what its loop
    returns on its events; and when both loops return, the operation
    returns under every schedule that gives each task a turn per event. *)
Theorem DoWithContext_waits_first_error httpu req interval evs reads sched :
  let g := Group_run httpu req interval evs reads sched in
  (∀ r, result (DoWithContext httpu req interval evs reads sched) = Returned r ↔
     ∃ rs rr,
       task_status httpu req interval evs reads Transmitter g = Returned rs ∧
       task_status httpu req interval evs reads Collector g = Returned rr ∧
       (finished g = [(Transmitter, rs); (Collector, rr)] ∨
        finished g = [(Collector, rr); (Transmitter, rs)]) ∧
       r = first_error (finished g).*2) ∧
  (∀ rs, task_status httpu req interval evs reads Transmitter g = Returned rs →
         (startLoopSendHTTPURequest httpu req interval evs).2 = Returned rs) ∧
  (∀ rr, task_status httpu req interval evs reads Collector g = Returned rr →
         (startReceiveResponse httpu req reads).2 = Returned rr) ∧
  (∀ rs rr,
     (startLoopSendHTTPURequest httpu req interval evs).2 = Returned rs →
     (startReceiveResponse httpu req reads).2 = Returned rr →
     (length evs ≤ turns Transmitter sched)%nat →
     (length reads ≤ turns Collector sched)%nat →
     ∃ r, result (DoWithContext httpu req interval evs reads sched) = Returned r).
Proof.
  intros g. pose proof (Group_run_inv httpu req interval evs reads sched) as Hinv.
  fold g in Hinv. split; [|split; [|split]].
  - intros r. simpl. fold g. rewrite Group_Wait_Returned. split.
    + intros (rs & rr & Hs & Hr & ->). exists rs, rr.
      split; [done|]. split; [done|].
      split; [by apply (finished_both httpu req interval evs reads)|].
      by destruct Hinv.
    + intros (rs & rr & Hs & Hr & _ & ->). exists rs, rr.
      split; [done|]. split; [done|]. by destruct Hinv.
  - intros rs Hs%task_run_Returned. simpl in Hs. by rewrite firstn_all in Hs.
  - intros rr Hr%task_run_Returned. simpl in Hr. by rewrite firstn_all in Hr.
  - intros rs rr. apply DoWithContext_returns.
Qed.

(** C1: when the cancellation signal fires while the transmitter waits for
    its next tick, after any number of ticks with successful sends, the loop
    ends, but with [ctx.Err()], which is not nil, and so [DoWithContext]
    never returns nil; until then the loop had not ended. *)
Theorem transmitter_cancel_returns_ctx_error httpu req interval pre c rest :
  0 < interval →
  Forall (good_tick httpu req) pre →
  (startLoopSendHTTPURequest httpu req interval pre).2 = Running ∧
  startLoopSendHTTPURequest httpu req interval (pre ++ CtxDone c :: rest)
  = ((startLoopSendHTTPURequest httpu req interval pre).1,
     Returned (Some (CtxError c))) ∧
  ∀ reads sched,
    result (DoWithContext httpu req interval (pre ++ CtxDone c :: rest) reads sched)
    ≠ Returned None.
Proof.
  intros Hi Hpre.
  pose proof (startLoopSendHTTPURequest_Running _ _ _ _ Hi Hpre) as Hrun.
  split; [done|]. split; [|intros; apply DoWithContext_never_nil].
  rewrite !startLoopSendHTTPURequest_positive in * by done.
  rewrite for_loop_app_Running by done.
  rewrite (for_loop_cons_Return _ (CtxDone c) [] (Some (CtxError c))) by done.
  simpl. by rewrite (right_id_L [] (++)).
Qed.


(** C10: [Do] is [DoWithContext].  With a request that is never cancelled
    and has no deadline it returns only after a send has failed, and then a
    non-nil error; as long as every send succeeds it does not return. *)
Theorem Do_is_DoWithContext httpu req interval evs reads sched :
  Do httpu req interval evs reads sched
  = DoWithContext httpu req interval evs reads sched ∧
  (never_cancelled evs →
   ∀ r, result (Do httpu req interval evs reads sched) = Returned r →
        r ≠ None ∧
        ∃ env, TickerC env ∈ evs ∧ (sendHTTPURequest httpu req env).2 ≠ None) ∧
  (Forall (good_tick httpu req) evs →
   ∀ r, result (Do httpu req interval evs reads sched) ≠ Returned r).
Proof.
  split; [done|]. unfold Do. split.
  - intros Hnc r Hret. split.
    { intros ->. by apply DoWithContext_never_nil in Hret. }
    apply DoWithContext_Returned in Hret as (rs & rr & Hs & _).
    apply startLoopSendHTTPURequest_Returned in Hs as (_ & _ & ev & Hin & Hev).
    unfold never_cancelled in Hnc. rewrite Forall_forall in Hnc.
    specialize (Hnc ev Hin). destruct ev as [env|c]; [|done].
    exists env. split; [done|]. simpl in Hev.
    by destruct (sendHTTPURequest httpu req env) as [effs [e|]].
  - intros Hgood r (rs & rr & Hs & _)%DoWithContext_Returned.
    pose proof (startLoopSendHTTPURequest_Returned _ _ _ _ _ Hs) as (Hi & _).
    pose proof (startLoopSendHTTPURequest_Running _ _ _ _ Hi Hgood).
    congruence.
Qed.

End Operation_claims.

(** ** Lifecycle *)
Section Lifecycle.
Context `{GoLib}.

Lemma NewHTTPUClient_fresh httpu :
  NewHTTPUClient = inl httpu →
  connLock httpu = false ∧ connClosed (conn httpu) = false ∧
  receiver httpu = Some make_chan.
Proof.
  unfold NewHTTPUClient, ListenPacket.
  destruct (ListenPacket_bind "udp" ":0"); [|done]. by intros [= <-].
Qed.

Lemma NewHTTPUClientAddr_fresh addr httpu :
  NewHTTPUClientAddr addr = inl httpu →
  connLock httpu = false ∧ connClosed (conn httpu) = false ∧
  receiver httpu = None.
Proof.
  unfold NewHTTPUClientAddr, ListenPacket.
  destruct (ParseIP addr) as [ip|]; [|done].
  destruct (ListenPacket_bind "udp" _); [|done]. by intros [= <-].
Qed.

(** C8: on a client made by [NewHTTPUClient], one call of [Close] closes the
    receiver channel and the socket and returns nil; on a client made by
    [NewHTTPUClientAddr], whose receiver channel is nil, [Close] panics in
    [close(httpu.receiver)] and leaves the socket open. *)
Theorem Close_after_constructors :
  (∀ httpu,
     NewHTTPUClient = inl httpu →
     Close httpu
     = ({| connLock := false;
           conn := {| localAddr := localAddr (conn httpu); connClosed := true |};
           receiver := Some {| chClosed := true; chSent := [] |} |},
        Returned None)) ∧
  (∀ addr httpu,
     NewHTTPUClientAddr addr = inl httpu →
     (Close httpu).2 = Panicked "close of nil channel" ∧
     connClosed (conn (Close httpu).1) = false ∧
     receiver (Close httpu).1 = None).
Proof.
  split.
  - intros httpu (Hl & Hc & Hr)%NewHTTPUClient_fresh.
    unfold Close, conn_Close. rewrite Hl, Hr, Hc. done.
  - intros addr httpu (Hl & Hc & Hr)%NewHTTPUClientAddr_fresh.
    unfold Close. rewrite Hl, Hr. simpl. done.
Qed.

End Lifecycle.

(** * The code on concrete inputs *)
Section Scenarios.
Import Sample.
#[local] Existing Instance lib.

Example send_search :
  sendHTTPURequest client search full_write
  = ([EWriteTo ("M-SEARCH * HTTP/1.1" +:+ CRLF +:+ "Man: ssdp:discover" +:+ CRLF
                +:+ CRLF) (UDPAddr "239.255.255.250" 1900)], None).
Proof. reflexivity. Qed.

Example send_default_method :
  encodeRequest search_no_method = inl ("GET /search HTTP/1.1" +:+ CRLF +:+ CRLF).
Proof. reflexivity. Qed.

Example collect_window :
  startReceiveResponse client search
    [ReadOk ok_datagram; ReadOk noise; ReadErr temporary_error;
     ReadOk ok_datagram; ReadErr timeout_error]
  = ([ELog "httpu: error while parsing response: malformed HTTP response";
      ESleep 10000000], Returned None).
Proof. reflexivity. Qed.

Example window_with_deadline :
  DoWithContext client search 1000
    [TickerC full_write; TickerC full_write; CtxDone DeadlineExceeded]
    [ReadOk ok_datagram; ReadOk noise; ReadOk ok_datagram; ReadErr timeout_error]
    [Transmitter; Collector; Collector; Transmitter; Collector; Collector;
     Transmitter]
  = {| sendLog := [EWriteTo (wire_format search) (UDPAddr "239.255.255.250" 1900);
                   EWriteTo (wire_format search) (UDPAddr "239.255.255.250" 1900)];
       recvLog := [ELog "httpu: error while parsing response: malformed HTTP response"];
       result := Returned (Some (CtxError DeadlineExceeded)) |}.
Proof. reflexivity. Qed.

Example wait_blocks_on_collector :
  result (DoWithContext client search 1000
            [TickerC short_write] [ReadOk ok_datagram]
            [Transmitter; Collector; Collector; Transmitter])
  = Running.
Proof. reflexivity. Qed.

Lemma sendHTTPURequest_wire_format_witness :
  encodeRequest search_no_method
  = inl ("GET /search HTTP/1.1" +:+ CRLF +:+ "" +:+ CRLF) ∧
  writes (sendHTTPURequest client search_no_method full_write).1
  = [("GET /search HTTP/1.1" +:+ CRLF +:+ "" +:+ CRLF, UDPAddr "239.255.255.250" 1900)].
Proof. exact (sendHTTPURequest_wire_format client search_no_method full_write). Defined.

Lemma collector_annotates_but_never_delivers_witness :
  "192.168.1.10" ∈ default [] (RespHeader (annotateResponse client
                    {| Status := "200 OK"; RespHeader := ∅; Body := "" |})
                  !! "Goupnp-Local-Address") ∧
  receiveIteration client search (ReadOk ok_datagram) = ([], Continue) ∧
  ∀ pre rest,
    deliveries (startReceiveResponse client search
                  (pre ++ ReadOk ok_datagram :: rest)).1 = [].
Proof.
  apply (collector_annotates_but_never_delivers client search ok_datagram
           {| Status := "200 OK"; RespHeader := ∅; Body := "" |}
           "192.168.1.10" 49152); reflexivity.
Defined.

Lemma collector_timeout_returns_nil_witness :
  startReceiveResponse client search
    ([ReadOk ok_datagram; ReadOk noise] ++ ReadErr timeout_error :: [ReadOk ok_datagram])
  = ((startReceiveResponse client search [ReadOk ok_datagram; ReadOk noise]).1,
     Returned None).
Proof.
  apply (collector_timeout_returns_nil client search
           [ReadOk ok_datagram; ReadOk noise] timeout_error true [ReadOk ok_datagram]);
    reflexivity.
Defined.

Lemma collector_discards_unparseable_witness :
  receiveIteration client search (ReadOk noise)
  = ([ELog ("httpu: error while parsing response: "
            +:+ Error (PlainError "malformed HTTP response"))], Continue) ∧
  ∀ pre rest,
    (startReceiveResponse client search (pre ++ ReadOk noise :: rest)).2
    = (startReceiveResponse client search (pre ++ rest)).2.
Proof.
  apply (collector_discards_unparseable client search noise
           (PlainError "malformed HTTP response")); reflexivity.
Defined.

Lemma collector_retries_temporary_witness :
  receiveIteration client search (ReadErr temporary_error)
  = ([ESleep (10 * Millisecond)], Continue) ∧
  (∀ pre rest,
    (startReceiveResponse client search pre).2 = Running →
    startReceiveResponse client search (pre ++ ReadErr temporary_error :: rest)
    = (((startReceiveResponse client search pre).1 ++
        ESleep (10 * Millisecond) :: (startReceiveResponse client search rest).1)%list,
       (startReceiveResponse client search rest).2)) ∧
  (∀ pre rest,
    (startReceiveResponse client search (pre ++ ReadErr temporary_error :: rest)).2
    = (startReceiveResponse client search (pre ++ rest)).2).
Proof.
  apply (collector_retries_temporary client search temporary_error); reflexivity.
Defined.

Lemma Close_after_constructors_witness :
  let made :=
    {| connLock := false;
       conn := {| localAddr := UDPAddr "0.0.0.0" 49152; connClosed := false |};
       receiver := Some make_chan |} in
  let made_addr :=
    {| connLock := false;
       conn := {| localAddr := UDPAddr "127.0.0.1" 49152; connClosed := false |};
       receiver := None |} in
  (NewHTTPUClient = inl made ∧
   Close made
   = ({| connLock := false;
         conn := {| localAddr := UDPAddr "0.0.0.0" 49152; connClosed := true |};
         receiver := Some {| chClosed := true; chSent := [] |} |},
      Returned None)) ∧
  (NewHTTPUClientAddr "127.0.0.1" = inl made_addr ∧
   (Close made_addr).2 = Panicked "close of nil channel" ∧
   connClosed (conn (Close made_addr).1) = false ∧
   receiver (Close made_addr).1 = None).
Proof.
  intros made made_addr.
  destruct Close_after_constructors as [Hmade Haddr].
  split; (split; [reflexivity|]).
  - apply (Hmade made). reflexivity.
  - apply (Haddr "127.0.0.1" made_addr). reflexivity.
Defined.

Lemma transmitter_cancel_returns_ctx_error_witness :
  (0 < 1000 ∧ Forall (good_tick client search) [TickerC full_write]) ∧
  (startLoopSendHTTPURequest client search 1000 [TickerC full_write]).2 = Running ∧
  startLoopSendHTTPURequest client search 1000
    ([TickerC full_write] ++ CtxDone DeadlineExceeded :: [TickerC full_write])
  = ((startLoopSendHTTPURequest client search 1000 [TickerC full_write]).1,
     Returned (Some (CtxError DeadlineExceeded))) ∧
  ∀ reads sched,
    result (DoWithContext client search 1000
              ([TickerC full_write] ++ CtxDone DeadlineExceeded :: [TickerC full_write])
              reads sched)
    ≠ Returned None.
Proof.
  assert (0 < 1000 ∧ Forall (good_tick client search) [TickerC full_write])
    as Hhyp.
  { split; [lia|]. repeat constructor. }
  split; [exact Hhyp|].
  exact (transmitter_cancel_returns_ctx_error client search 1000
           [TickerC full_write] DeadlineExceeded [TickerC full_write]
           (proj1 Hhyp) (proj2 Hhyp)).
Defined.


Lemma DoWithContext_waits_first_error_witness :
  ∃ r,
    result (DoWithContext client search 1000
              [TickerC full_write; CtxDone DeadlineExceeded]
              [ReadOk ok_datagram; ReadErr closed_error]
              [Collector; Transmitter; Collector; Transmitter])
    = Returned r.
Proof.
  destruct (DoWithContext_waits_first_error client search 1000
              [TickerC full_write; CtxDone DeadlineExceeded]
              [ReadOk ok_datagram; ReadErr closed_error]
              [Collector; Transmitter; Collector; Transmitter])
    as (_ & _ & _ & Hreturns).
  apply (Hreturns (Some (CtxError DeadlineExceeded)) (Some closed_error));
    [reflexivity | reflexivity | vm_compute; lia | vm_compute; lia].
Defined.

Lemma Do_is_DoWithContext_witness :
  Forall (good_tick client search) [TickerC full_write; TickerC full_write] ∧
  ∀ r, result (Do client search 1000 [TickerC full_write; TickerC full_write]
                 [ReadErr closed_error] [Transmitter; Collector; Transmitter])
       ≠ Returned r.
Proof.
  assert (Forall (good_tick client search) [TickerC full_write; TickerC full_write])
    as Hgood by repeat constructor.
  split; [exact Hgood|].
  exact (proj2 (proj2 (Do_is_DoWithContext client search 1000
                         [TickerC full_write; TickerC full_write]
                         [ReadErr closed_error]
                         [Transmitter; Collector; Transmitter])) Hgood).
Defined.

(** With no cancellation and no deadline [Do] still returns when a send
    fails and the read fails: here no send can resolve the destination, and
    the socket is closed under the pending read. *)
Lemma Do_returns_without_cancellation :
  ¬ (never_cancelled [TickerC full_write] →
     ∀ r, result (Do client unresolvable 1000 [TickerC full_write]
                    [ReadErr closed_error] [Transmitter; Collector])
          ≠ Returned r).
Proof.
  intros Hclaim.
  apply (Hclaim ltac:(repeat constructor)
           (Some (PlainError "address nowhere: missing port in address"))).
  reflexivity.
Qed.

End Scenarios.

(** * Further properties of the code *)

(** ** The transmitter *)
Section Transmitter_properties.
Context `{GoLib}.
Implicit Types (httpu : HTTPUClient) (req : Request) (env : sendEnv).
Implicit Types (evs : list selectEvent).

(** A send succeeds exactly when the destination resolves, [WriteTo] reports
    no error, and it reports at least the length of the encoded request. *)
Theorem sendHTTPURequest_succeeds_iff httpu req env :
  (sendHTTPURequest httpu req env).2 = None ↔
  ∃ requestBuf dest,
    encodeRequest req = inl requestBuf ∧
    ResolveUDPAddr "udp" (Host req) = inl dest ∧
    writeErr env = None ∧
    Z.of_nat (String.length requestBuf) ≤ writeN env.
Proof.
  unfold sendHTTPURequest. rewrite encodeRequest_wire_format.
  destruct (ResolveUDPAddr "udp" (Host req)) as [dest|err] eqn:Hr.
  - destruct (writeErr env) as [e|] eqn:He.
    + split; [done|]. by intros (? & ? & _ & _ & ? & _).
    + case_decide as Hn; simpl.
      * split; [done|]. intros (buf & d & [= <-] & _ & _ & Hle). lia.
      * split; [|done]. intros _. exists (wire_format req), dest.
        repeat split. lia.
  - split; [done|]. by intros (? & ? & _ & ? & _).
Qed.

(** With a host that does not resolve, the loop ends at its first tick with
    the error of the resolver, and never writes to the socket. *)
Theorem transmitter_unresolved_host httpu req interval env evs err :
  0 < interval →
  ResolveUDPAddr "udp" (Host req) = inr err →
  startLoopSendHTTPURequest httpu req interval (TickerC env :: evs)
  = ([], Returned (Some err)).
Proof.
  intros Hi Hr. rewrite startLoopSendHTTPURequest_positive by done.
  apply for_loop_cons_Return. simpl.
  by rewrite (sendHTTPURequest_unresolved _ _ _ _ Hr).
Qed.

Lemma writes_app (effs effs' : list effect) :
  writes (effs ++ effs') = (writes effs ++ writes effs')%list.
Proof. apply omap_app. Qed.

Lemma sendIteration_writes httpu req ev dest :
  ResolveUDPAddr "udp" (Host req) = inl dest →
  writes (sendIteration httpu req ev).1
  = match ev with
    | TickerC _ => [(wire_format req, dest)]
    | CtxDone _ => []
    end.
Proof.
  intros Hr. destruct ev as [env|c]; simpl; [|done].
  pose proof (sendHTTPURequest_resolved httpu req env dest Hr) as Hw.
  by destruct (sendHTTPURequest httpu req env) as [effs [e|]].
Qed.


(** The loop writes at most one datagram per event, and exactly one per tick
    as long as it runs. *)
Theorem transmitter_one_send_per_tick httpu req interval evs dest :
  ResolveUDPAddr "udp" (Host req) = inl dest →
  let out := startLoopSendHTTPURequest httpu req interval evs in
  (length (writes out.1) ≤ length evs)%nat ∧
  (out.2 = Running → length (writes out.1) = length evs).
Proof.
  intros Hr. unfold startLoopSendHTTPURequest. case_decide; simpl.
  { split; [lia|done]. }
  induction evs as [|ev evs [IHle IHrun]]; simpl; [done|].
  pose proof (sendIteration_writes httpu req ev dest Hr) as Hw.
  pose proof (sendIteration_Return httpu req ev) as Hret.
  destruct (sendIteration httpu req ev) as [effs [|err]] eqn:Hit; simpl in *.
  - destruct (for_loop (sendIteration httpu req) evs) as [effs' st].
    simpl in *. rewrite writes_app, length_app, Hw.
    destruct ev as [env|c]; simpl.
    + split; [lia|]. intros Hst. by rewrite (IHrun Hst).
    + simpl in Hit. done.
  - split; [|done]. rewrite Hw. destruct ev; simpl; lia.
Qed.

(** The loop touches the deadline of the socket only when a cancellation
    arrives while a send is in flight: a cancellation that the [select]
    sees between ticks ends the loop without forcing the deadline. *)
Theorem deadline_forced_only_in_flight httpu req interval evs :
  Forall no_cancel_in_flight evs →
  ESetDeadlinePast ∉ (startLoopSendHTTPURequest httpu req interval evs).1.
Proof.
  intros Hevs. unfold startLoopSendHTTPURequest.
  case_decide; [by apply not_elem_of_nil|].
  induction Hevs as [|ev evs Hev _ IH]; simpl; [by apply not_elem_of_nil|].
  assert (ESetDeadlinePast ∉ (sendIteration httpu req ev).1) as Hit.
  { destruct ev as [env|c]; simpl; [|by apply not_elem_of_nil].
    simpl in Hev. unfold sendHTTPURequest.
    destruct (encodeRequest req); [|by apply not_elem_of_nil].
    destruct (ResolveUDPAddr _ _); [|by apply not_elem_of_nil].
    rewrite Hev. simpl.
    destruct (writeErr env); [|case_decide]; simpl;
      by intros [=]%list_elem_of_singleton. }
  destruct (sendIteration httpu req ev) as [effs [|err]]; simpl in *; [|done].
  destruct (for_loop (sendIteration httpu req) evs) as [effs' st]. simpl in *.
  rewrite elem_of_app. tauto.
Qed.


End Transmitter_properties.

(** ** The collector *)
Section Collector_properties.
Context `{GoLib}.
Implicit Types (httpu : HTTPUClient) (req : Request) (reads : list readResult).

(** All the collector does besides reading is to log a parse error and to
    sleep 10 ms: it never writes to the socket, never moves its deadline and
    never sends on a channel. *)
Theorem collector_only_logs_and_sleeps httpu req reads :
  Forall (λ e, (∃ line, e = ELog line) ∨ e = ESleep (10 * Millisecond))
         (startReceiveResponse httpu req reads).1.
Proof.
  apply for_loop_effects. intros [datagram|err]; simpl.
  - destruct (ReadResponse _ _); simpl;
      repeat (apply Forall_cons; split); try apply Forall_nil; eauto.
  - destruct (asNetError err) as [[[] []]|]; simpl;
      repeat (apply Forall_cons; split); try apply Forall_nil; auto.
Qed.

(** A read error that is no [net.Error], or one that is neither a timeout
    nor temporary, ends the collector, which returns that very error. *)
Theorem collector_returns_fatal_read_error httpu req pre err rest :
  fatal_read err →
  (startReceiveResponse httpu req pre).2 = Running →
  startReceiveResponse httpu req (pre ++ ReadErr err :: rest)
  = ((startReceiveResponse httpu req pre).1, Returned (Some err)).
Proof.
  intros Hf Hpre. unfold startReceiveResponse in *.
  rewrite for_loop_app_Running by done.
  rewrite (for_loop_cons_Return _ (ReadErr err) [] (Some err)).
  - simpl. by rewrite (right_id_L [] (++)).
  - simpl. by destruct Hf as [-> | ->].
Qed.

Lemma receiveIteration_Continue httpu req r :
  (receiveIteration httpu req r).2 = Continue ↔ read_again r.
Proof.
  destruct r as [datagram|err]; simpl.
  - by destruct (ReadResponse _ _).
  - destruct (asNetError err) as [[[] []]|]; simpl; split; done.
Qed.

(** The collector keeps reading exactly as long as every read gave a
    datagram, parsed or not, or a temporary error. *)
Theorem collector_running_iff httpu req reads :
  (startReceiveResponse httpu req reads).2 = Running ↔ Forall read_again reads.
Proof.
  unfold startReceiveResponse. induction reads as [|r reads IH]; simpl.
  - split; [constructor|done].
  - rewrite Forall_cons, <- IH, <- (receiveIteration_Continue httpu req).
    destruct (receiveIteration httpu req r) as [effs [|err]]; simpl.
    + destruct (for_loop _ reads) as [effs' st]. simpl. tauto.
    + split; [done|]. by intros [? _].
Qed.

Lemma startReceiveResponse_Running httpu req reads :
  Forall read_again reads → (startReceiveResponse httpu req reads).2 = Running.
Proof.
  intros Hreads. apply for_loop_Running. eapply Forall_impl; [done|].
  intros r. apply receiveIteration_Continue.
Qed.

(** The header added to a response leaves the status, the body and the
    headers under every other key as they were parsed; a socket whose local
    address is no UDP address leaves the response untouched. *)
Theorem annotateResponse_preserves httpu response :
  Status (annotateResponse httpu response) = Status response ∧
  Body (annotateResponse httpu response) = Body response ∧
  (∀ key, key ≠ CanonicalMIMEHeaderKey LocalAddressHeader →
          RespHeader (annotateResponse httpu response) !! key
          = RespHeader response !! key) ∧
  (∀ s, localAddr (conn httpu) = OtherAddr s →
        annotateResponse httpu response = response).
Proof.
  unfold annotateResponse.
  destruct (localAddr (conn httpu)) as [ip port|s]; simpl.
  - split; [done|]. split; [done|]. split; [|done].
    intros key Hne. unfold Header_Add. by rewrite lookup_insert_ne.
  - done.
Qed.

Lemma length_append (s t : string) :
  String.length (s +:+ t) = (String.length s + String.length t)%nat.
Proof. induction s as [|a s IH]; simpl; [done|]. by rewrite IH. Qed.

Lemma substring_all n (s : string) :
  (String.length s ≤ n)%nat → String.substring 0 n s = s.
Proof.
  revert n. induction s as [|a s IH]; intros [|n] Hn; simpl in *; try done.
  - lia.
  - rewrite IH; [done|lia].
Qed.

Lemma substring_append n (s t : string) :
  (n ≤ String.length s)%nat →
  String.substring 0 n (s +:+ t) = String.substring 0 n s.
Proof.
  revert n. induction s as [|a s IH]; intros [|n] Hn; simpl in *; try done.
  - by destruct t.
  - lia.
  - rewrite IH; [done|lia].
Qed.

Lemma length_substring n (s : string) :
  String.length (String.substring 0 n s) = Nat.min (String.length s) n.
Proof.
  revert n. induction s as [|a s IH]; intros [|n]; simpl; try done.
  by rewrite IH.
Qed.

Lemma received_bytes_append (datagram more : string) :
  (2048 ≤ String.length datagram)%nat →
  received_bytes (datagram +:+ more) = received_bytes datagram.
Proof.
  intros Hge. unfold received_bytes. rewrite length_append.
  rewrite !Nat.min_r by lia. by apply substring_append.
Qed.

(** Only the first 2048 bytes of a datagram reach the parser: a datagram of
    up to 2048 bytes is parsed whole, and what follows the 2048th byte of a
    longer one makes no difference to the collector. *)
Theorem collector_truncates_datagrams httpu req (datagram more : string) :
  String.length (received_bytes datagram) = Nat.min (String.length datagram) 2048 ∧
  ((String.length datagram ≤ 2048)%nat → received_bytes datagram = datagram) ∧
  ((2048 ≤ String.length datagram)%nat →
   receiveIteration httpu req (ReadOk (datagram +:+ more))
   = receiveIteration httpu req (ReadOk datagram)).
Proof.
  split; [|split].
  - unfold received_bytes. rewrite length_substring. lia.
  - intros Hle. unfold received_bytes. apply substring_all. lia.
  - intros Hge. simpl. by rewrite received_bytes_append.
Qed.


End Collector_properties.

(** ** The operation *)
Section Operation_properties.
Context `{GoLib}.
Variables (httpu : HTTPUClient) (req : Request) (interval : Z).
Variables (evs : list selectEvent) (reads : list readResult).


(** With an interval that is not positive, [time.NewTicker] panics in the
    transmitter before anything is sent, under every schedule. *)
Theorem DoWithContext_panics_without_interval sched :
  interval ≤ 0 →
  result (DoWithContext httpu req interval evs reads sched)
  = Panicked "non-positive interval for NewTicker" ∧
  sendLog (DoWithContext httpu req interval evs reads sched) = [].
Proof.
  intros Hi. simpl. unfold Group_Wait. simpl.
  unfold startLoopSendHTTPURequest. by rewrite decide_True.
Qed.

(** The operation does not return while the collector reads datagrams and
    temporary errors only, whatever the transmitter does: a cancellation or
    a failed send alone does not end it. *)
Theorem DoWithContext_waits_for_collector sched r :
  Forall read_again reads →
  result (DoWithContext httpu req interval evs reads sched) ≠ Returned r.
Proof.
  intros Hreads (rs & rr & _ & Hr & _)%DoWithContext_Returned.
  apply (startReceiveResponse_Running httpu req) in Hreads. congruence.
Qed.

(** When the collector ends its window with nil, the operation returns what
    the transmitter returned, under every schedule. *)
Theorem DoWithContext_returns_transmitter_error sched r :
  (startReceiveResponse httpu req reads).2 = Returned None →
  result (DoWithContext httpu req interval evs reads sched) = Returned r →
  (startLoopSendHTTPURequest httpu req interval evs).2 = Returned r.
Proof.
  intros Hnil (rs & rr & Hs & Hr & _ & Hfirst)%DoWithContext_Returned.
  rewrite Hnil in Hr. injection Hr as <-.
  destruct Hfirst as [-> | ->]; simpl; by destruct rs.
Qed.

Lemma gErr_step g t e :
  gErr g = Some e → gErr (Group_step httpu req interval evs reads g t) = Some e.
Proof.
  intros He. unfold Group_step.
  destruct (task_run _ _ _ _ _ t (task_steps t g)).2; try done.
  case_decide; [|done].
  destruct (task_run _ _ _ _ _ t (S (task_steps t g))).2 as [|err|];
    cbn [gErr]; rewrite ?gErr_advance, ?He; try done.
  by destruct err.
Qed.

Lemma gErr_foldl g sched e :
  gErr g = Some e →
  gErr (foldl (Group_step httpu req interval evs reads) g sched) = Some e.
Proof.
  revert g. induction sched as [|t sched IH]; intros g He; simpl; [done|].
  by apply IH, gErr_step.
Qed.

Lemma first_error_all (errs : list (option error)) e :
  errs ≠ [] → Forall (λ err, err = Some e) errs → first_error errs = Some e.
Proof. intros Hne Hall. destruct Hall as [|? ? ->]; done. Qed.

(** The first error wins: once one task has returned an error while the
    other has not returned, the operation returns that error, whatever the
    other task returns later. *)
Theorem DoWithContext_first_error_wins sched sched' t t' e r :
  let g := Group_run httpu req interval evs reads sched in
  t ≠ t' →
  task_status httpu req interval evs reads t g = Returned (Some e) →
  (∀ r', task_status httpu req interval evs reads t' g ≠ Returned r') →
  result (DoWithContext httpu req interval evs reads (sched ++ sched'))
  = Returned r →
  r = Some e.
Proof.
  intros g Hne Ht Ht' (rs & rr & _ & _ & ->)%Group_Wait_Returned.
  unfold Group_run. rewrite foldl_app. apply gErr_foldl.
  change (gErr g = Some e).
  destruct (Group_run_inv httpu req interval evs reads sched) as (Herr & _ & Hfin).
  fold g in Herr, Hfin. rewrite Herr. apply first_error_all.
  - apply Hfin in Ht. intros Hnil%fmap_nil_inv. rewrite Hnil in Ht.
    by apply elem_of_nil in Ht.
  - apply Forall_fmap, Forall_forall. intros [t0 r0] Hin. simpl.
    apply Hfin in Hin. destruct (decide (t0 = t)) as [->|Hne0].
    + congruence.
    + assert (t0 = t') as -> by by destruct t0, t, t'. by apply Ht' in Hin.
Qed.



End Operation_properties.

(** ** Closing *)
Section Close_properties.
Context `{GoLib}.

(** [Close] is good for one call: on a client with an open receiver channel
    a second call panics in [close], whatever the state of the socket. *)
Theorem Close_twice_panics httpu ch :
  connLock httpu = false →
  receiver httpu = Some ch →
  chClosed ch = false →
  ∃ err,
    (Close httpu).2 = Returned err ∧
    (Close (Close httpu).1).2 = Panicked "close of closed channel".
Proof.
  intros Hl Hr Hc. unfold Close at 1 3. rewrite Hl, Hr. simpl. rewrite Hc.
  destruct (conn_Close (conn httpu)) as [conn' err]. by exists err.
Qed.

End Close_properties.

(** ** What the transmitter returns *)
Section Transmitter_results.
Context `{GoLib}.
Implicit Types (httpu : HTTPUClient) (req : Request) (env : sendEnv).

(** The first send that fails ends the loop, which returns the error of
    that send, whatever it is, and has written nothing after it. *)
Theorem transmitter_returns_first_send_error httpu req interval pre env e rest :
  0 < interval →
  Forall (good_tick httpu req) pre →
  (sendHTTPURequest httpu req env).2 = Some e →
  startLoopSendHTTPURequest httpu req interval (pre ++ TickerC env :: rest)
  = (((startLoopSendHTTPURequest httpu req interval pre).1
      ++ (sendHTTPURequest httpu req env).1)%list,
     Returned (Some e)).
Proof.
  intros Hi Hpre He.
  pose proof (startLoopSendHTTPURequest_Running _ _ _ _ Hi Hpre) as Hrun.
  rewrite !startLoopSendHTTPURequest_positive in * by done.
  rewrite for_loop_app_Running by done.
  rewrite (for_loop_cons_Return _ (TickerC env)
             (sendHTTPURequest httpu req env).1 (Some e)); [done|].
  simpl. destruct (sendHTTPURequest httpu req env) as [effs e'].
  simpl in He. by subst e'.
Qed.

(** The loop returns nothing but the error of the context, on a
    cancellation, or the error of a failed send: it never returns nil. *)
Theorem transmitter_returns_only_errors httpu req interval evs r :
  (startLoopSendHTTPURequest httpu req interval evs).2 = Returned r →
  (∃ c, CtxDone c ∈ evs ∧ r = Some (CtxError c)) ∨
  (∃ env e, TickerC env ∈ evs ∧ (sendHTTPURequest httpu req env).2 = Some e ∧
            r = Some e).
Proof.
  intros (_ & _ & ev & Hin & Hev)%startLoopSendHTTPURequest_Returned.
  destruct ev as [env|c]; simpl in Hev.
  - right. destruct (sendHTTPURequest httpu req env) as [effs [e|]] eqn:Hs;
      [|done].
    injection Hev as <-. exists env, e. by rewrite Hs.
  - left. injection Hev as <-. by exists c.
Qed.

End Transmitter_results.

(** ** The receiver channel *)
Section Receiver_channel.
Context `{GoLib}.

Lemma sendIteration_no_send httpu req ev :
  Forall (λ e, ∀ r, e ≠ EChanSend r) (sendIteration httpu req ev).1.
Proof.
  destruct ev as [env|c]; simpl; [|constructor].
  unfold sendHTTPURequest.
  destruct (encodeRequest req); [|constructor].
  destruct (ResolveUDPAddr _ _); [|constructor].
  destruct (cancelledDuringSend env), (writeErr env); simpl;
    try case_decide; simpl; repeat (apply Forall_cons; split);
    try apply Forall_nil; done.
Qed.

(** No operation ever sends a response on the receiver channel, whatever
    arrives on the socket and however its two tasks are scheduled. *)
Theorem DoWithContext_never_delivers httpu req interval evs reads sched :
  deliveries (sendLog (DoWithContext httpu req interval evs reads sched)) = [] ∧
  deliveries (recvLog (DoWithContext httpu req interval evs reads sched)) = [].
Proof.
  simpl. split.
  - apply deliveries_nil. unfold startLoopSendHTTPURequest.
    case_decide; [constructor|].
    apply for_loop_effects, sendIteration_no_send.
  - apply startReceiveResponse_no_delivery.
Qed.

End Receiver_channel.

(** * The further properties on concrete inputs *)
Section Further_scenarios.
Import Sample.
#[local] Existing Instance lib.

Lemma sendHTTPURequest_succeeds_iff_witness :
  (sendHTTPURequest client search full_write).2 = None.
Proof.
  apply (proj2 (sendHTTPURequest_succeeds_iff client search full_write)).
  exists (wire_format search), (UDPAddr "239.255.255.250" 1900).
  repeat split. vm_compute. discriminate.
Defined.

Lemma transmitter_unresolved_host_witness :
  startLoopSendHTTPURequest client unresolvable 1000
    (TickerC full_write :: [TickerC full_write])
  = ([], Returned (Some (PlainError "address nowhere: missing port in address"))).
Proof.
  apply (transmitter_unresolved_host client unresolvable 1000 full_write
           [TickerC full_write]); [lia | reflexivity].
Defined.


Lemma transmitter_one_send_per_tick_witness :
  let out := startLoopSendHTTPURequest client search 1000
               [TickerC full_write; TickerC full_write] in
  (length (writes out.1) ≤ 2)%nat ∧ (out.2 = Running → length (writes out.1) = 2%nat).
Proof.
  apply (transmitter_one_send_per_tick client search 1000
           [TickerC full_write; TickerC full_write] (UDPAddr "239.255.255.250" 1900)).
  reflexivity.
Defined.

Lemma deadline_forced_only_in_flight_witness :
  ESetDeadlinePast ∉ (startLoopSendHTTPURequest client search 1000
                        [TickerC full_write; CtxDone Canceled]).1.
Proof.
  apply (deadline_forced_only_in_flight client search 1000
           [TickerC full_write; CtxDone Canceled]).
  repeat constructor.
Defined.


Lemma transmitter_returns_first_send_error_witness :
  startLoopSendHTTPURequest client search 1000
    ([TickerC full_write] ++
     TickerC {| cancelledDuringSend := true; writeN := 0;
                writeErr := Some timeout_error |} :: [TickerC full_write])
  = (((startLoopSendHTTPURequest client search 1000 [TickerC full_write]).1
      ++ [ESetDeadlinePast;
          EWriteTo (wire_format search) (UDPAddr "239.255.255.250" 1900)])%list,
     Returned (Some timeout_error)).
Proof.
  apply (transmitter_returns_first_send_error client search 1000
           [TickerC full_write]
           {| cancelledDuringSend := true; writeN := 0;
              writeErr := Some timeout_error |}
           timeout_error [TickerC full_write]);
    [lia | repeat constructor | reflexivity].
Defined.

Lemma transmitter_returns_only_errors_witness :
  (∃ c, CtxDone c ∈ [TickerC full_write; CtxDone Canceled]
        ∧ Some (CtxError Canceled) = Some (CtxError c)) ∨
  (∃ env e, TickerC env ∈ [TickerC full_write; CtxDone Canceled] ∧
            (sendHTTPURequest client search env).2 = Some e ∧
            Some (CtxError Canceled) = Some e).
Proof.
  apply (transmitter_returns_only_errors client search 1000
           [TickerC full_write; CtxDone Canceled] (Some (CtxError Canceled))).
  reflexivity.
Defined.

Lemma collector_returns_fatal_read_error_witness :
  startReceiveResponse client search
    ([ReadOk ok_datagram] ++ ReadErr closed_error :: [ReadOk ok_datagram])
  = ((startReceiveResponse client search [ReadOk ok_datagram]).1,
     Returned (Some closed_error)).
Proof.
  apply (collector_returns_fatal_read_error client search [ReadOk ok_datagram]
           closed_error [ReadOk ok_datagram]); [by right | reflexivity].
Defined.

Lemma collector_running_iff_witness :
  (startReceiveResponse client search
     [ReadOk ok_datagram; ReadOk noise; ReadErr temporary_error]).2 = Running.
Proof.
  apply (proj2 (collector_running_iff client search
                  [ReadOk ok_datagram; ReadOk noise; ReadErr temporary_error])).
  repeat constructor.
Defined.

Lemma annotateResponse_preserves_witness :
  RespHeader (annotateResponse client
                {| Status := "200 OK";
                   RespHeader := {[ "Location" := ["http://192.168.1.1/desc.xml"] ]};
                   Body := "" |}) !! "Location"
  = Some ["http://192.168.1.1/desc.xml"].
Proof.
  destruct (annotateResponse_preserves client
              {| Status := "200 OK";
                 RespHeader := {[ "Location" := ["http://192.168.1.1/desc.xml"] ]};
                 Body := "" |}) as (_ & _ & Hkeys & _).
  rewrite (Hkeys "Location"); [reflexivity | by vm_compute].
Defined.

Lemma collector_truncates_datagrams_witness :
  received_bytes noise = noise ∧
  receiveIteration client search (ReadOk (long_datagram +:+ noise))
  = receiveIteration client search (ReadOk long_datagram).
Proof.
  destruct (collector_truncates_datagrams client search noise "")
    as (_ & Hshort & _).
  destruct (collector_truncates_datagrams client search long_datagram noise)
    as (_ & _ & Hlong).
  split.
  - apply Hshort. apply Nat.leb_le. by vm_compute.
  - apply Hlong. apply Nat.leb_le. by vm_compute.
Defined.


Lemma DoWithContext_panics_without_interval_witness :
  result (DoWithContext client search 0 [TickerC full_write] [ReadErr timeout_error]
            [Transmitter; Collector])
  = Panicked "non-positive interval for NewTicker" ∧
  sendLog (DoWithContext client search 0 [TickerC full_write] [ReadErr timeout_error]
             [Transmitter; Collector]) = [].
Proof.
  apply (DoWithContext_panics_without_interval client search 0
           [TickerC full_write] [ReadErr timeout_error] [Transmitter; Collector]).
  lia.
Defined.

Lemma DoWithContext_waits_for_collector_witness :
  result (DoWithContext client search 1000
            [TickerC full_write; CtxDone DeadlineExceeded]
            [ReadOk ok_datagram; ReadErr temporary_error]
            [Transmitter; Collector; Transmitter; Collector; Collector])
  ≠ Returned (Some (CtxError DeadlineExceeded)).
Proof.
  apply (DoWithContext_waits_for_collector client search 1000
           [TickerC full_write; CtxDone DeadlineExceeded]
           [ReadOk ok_datagram; ReadErr temporary_error]).
  repeat constructor.
Defined.

Lemma DoWithContext_returns_transmitter_error_witness :
  (startLoopSendHTTPURequest client search 1000
     [TickerC full_write; CtxDone DeadlineExceeded]).2
  = Returned (Some (CtxError DeadlineExceeded)).
Proof.
  apply (DoWithContext_returns_transmitter_error client search 1000
           [TickerC full_write; CtxDone DeadlineExceeded]
           [ReadOk ok_datagram; ReadErr timeout_error]
           [Collector; Transmitter; Collector; Transmitter]); reflexivity.
Defined.

Lemma DoWithContext_first_error_wins_witness :
  result (DoWithContext client search 1000
            [TickerC full_write; CtxDone DeadlineExceeded] [ReadErr closed_error]
            ([Transmitter; Transmitter] ++ [Collector]))
  = Returned (Some (CtxError DeadlineExceeded)) ∧
  Some (CtxError DeadlineExceeded) = Some (CtxError DeadlineExceeded).
Proof.
  split; [reflexivity|].
  apply (DoWithContext_first_error_wins client search 1000
           [TickerC full_write; CtxDone DeadlineExceeded] [ReadErr closed_error]
           [Transmitter; Transmitter] [Collector] Transmitter Collector
           (CtxError DeadlineExceeded) (Some (CtxError DeadlineExceeded)));
    [done | reflexivity | by intros r'; vm_compute | reflexivity].
Defined.

Lemma Close_twice_panics_witness :
  ∃ err,
    (Close client).2 = Returned err ∧
    (Close (Close client).1).2 = Panicked "close of closed channel".
Proof.
  apply (Close_twice_panics client {| chClosed := false; chSent := [] |});
    reflexivity.
Defined.

End Further_scenarios.
